(** * fib_imperative: the iterative Fibonacci of the RISC-V simulator extras

    Shallow embedding of
    [experimental/riscv-sim/Extra/fib_imperative.cpp] and the proofs of
    its contract.

    The C++ type [int] is embedded as the type [int] of integers in
    [-2^31, 2^31), carried by a [Z] together with its range check.
    Addition is two's-complement: the mathematical sum is reduced modulo
    2^32 into the signed range ([wrap]), which is what the RV32 [add]
    instruction the simulator executes does, and what the specification
    calls "silently wrapped per native integer arithmetic".  (ISO C++
    leaves signed overflow undefined; the results below that involve an
    overflowing sum hold for this wrap-around reading of [+].) *)

From Stdlib Require Import ZArith Bool Arith Wf_nat Lia Eqdep_dec.

Local Open Scope Z_scope.

(* ===================================================================== *)
(** ** 32-bit signed machine integers *)
(* ===================================================================== *)

Module Int32.

Definition wordsize : Z := 32.
Definition modulus : Z := 2 ^ wordsize.
Definition half_modulus : Z := 2 ^ (wordsize - 1).
Definition min_signed : Z := - half_modulus.
Definition max_signed : Z := half_modulus - 1.

(** [in_range z]: [z] is a value of the C++ type [int]. *)
Definition in_range (z : Z) : bool :=
  (min_signed <=? z) && (z <=? max_signed).

(** A machine integer is a [Z] of the signed range. *)
Record int : Type := mkint { signed : Z; signed_ok : in_range signed = true }.

(** Two's-complement reduction of an arbitrary integer into the signed
    range: the unique value of [-2^31, 2^31) congruent to [z] modulo
    2^32. *)
Definition wrap (z : Z) : Z :=
  (z + half_modulus) mod modulus - half_modulus.

Lemma wrap_in_range (z : Z) : in_range (wrap z) = true.
Proof.
  unfold in_range, wrap, min_signed, max_signed.
  assert (H : 0 <= (z + half_modulus) mod modulus < modulus)
    by (apply Z.mod_pos_bound; reflexivity).
  assert (Hm : modulus = 2 * half_modulus) by reflexivity.
  apply andb_true_intro; split; apply Z.leb_le; lia.
Qed.

(** [repr z] is the machine integer that the bit pattern of [z] denotes. *)
Definition repr (z : Z) : int := mkint (wrap z) (wrap_in_range z).

(** The C++ operators of the source on [int]. *)
Definition add (a b : int) : int := repr (signed a + signed b).
Definition lt (a b : int) : bool := signed a <? signed b.

Definition one : int := repr 1.
Definition two : int := repr 2.

End Int32.

Import Int32.

(* ===================================================================== *)
(** ** The program *)
(* ===================================================================== *)

(** The four local variables of [fib_imperative]. *)
Record state : Type := mkstate {
  fib1 : int;
  fib2 : int;
  fibonacci : int;
  i : int
}.

(** The declarations before the loop:
    [int fib1 = 1; int fib2 = 1; int fibonacci = fib1; int i = 2;] *)
Definition init_state : state :=
  let fib1 := one in
  let fib2 := one in
  let fibonacci := fib1 in
  let i := two in
  mkstate fib1 fib2 fibonacci i.

(** The loop guard [i < n]. *)
Definition cond (n : int) (s : state) : bool := lt (i s) n.

(** The loop body:
    [fibonacci = fib1 + fib2; fib1 = fib2; fib2 = fibonacci; i = i + 1;] *)
Definition body (s : state) : state :=
  let fibonacci' := add (fib1 s) (fib2 s) in
  let fib1' := fib2 s in
  let fib2' := fibonacci' in
  let i' := add (i s) one in
  mkstate fib1' fib2' fibonacci' i'.

(** The loop variant: the distance from the counter to the bound. *)
Definition variant (n : int) (s : state) : nat :=
  Z.to_nat (signed n - signed (i s)).

Lemma in_range_bounds (z : Z) :
  in_range z = true -> min_signed <= z <= max_signed.
Proof.
  unfold in_range. intros H. apply andb_prop in H. destruct H as [H1 H2].
  apply Z.leb_le in H1. apply Z.leb_le in H2. lia.
Qed.

Lemma signed_range (a : int) : min_signed <= signed a <= max_signed.
Proof. apply in_range_bounds, signed_ok. Qed.

Lemma wrap_small (z : Z) : min_signed <= z <= max_signed -> wrap z = z.
Proof.
  unfold wrap, min_signed, max_signed. intros H.
  assert (Hm : modulus = 2 * half_modulus) by reflexivity.
  rewrite Z.mod_small by lia. lia.
Qed.

(** Under the guard the increment of the counter does not overflow. *)
Lemma signed_incr (n a : int) :
  lt a n = true -> signed (add a one) = signed a + 1.
Proof.
  unfold lt. intros H. apply Z.ltb_lt in H.
  pose proof (signed_range a). pose proof (signed_range n).
  unfold add. cbn [signed repr one]. rewrite (wrap_small 1) by (cbv; split; discriminate).
  apply wrap_small. lia.
Qed.

Lemma variant_decreases (n : int) (s : state) :
  cond n s = true -> (variant n (body s) < variant n s)%nat.
Proof.
  unfold cond, variant. intros H. cbn [body i].
  rewrite (signed_incr n _ H). unfold lt in H. apply Z.ltb_lt in H. lia.
Qed.

(** [while ( i < n ) { body }].  The recursion is structural on the proof
    [a] that the variant is accessible for [<] on [nat]; the loop itself
    tests the guard and runs the body, and nothing else. *)
Fixpoint while_loop_from (n : int) (s : state)
    (a : Acc Peano.lt (variant n s)) {struct a} : state :=
  match sumbool_of_bool (cond n s) with
  | left Hc => while_loop_from n (body s) (Acc_inv a (variant_decreases n s Hc))
  | right _ => s
  end.

Definition while_loop (n : int) (s : state) : state :=
  while_loop_from n s (lt_wf (variant n s)).

(** [int fib_imperative( int n )]. *)
Definition fib_imperative (n : int) : int :=
  fibonacci (while_loop n init_state).

(* ===================================================================== *)
(** ** The sequence of the specification *)
(* ===================================================================== *)

(** The sequence defined by fib(1) = 1, fib(2) = 1,
    fib(k) = fib(k-1) + fib(k-2), as unbounded integers.  The recursion
    on [nat] starts at index 0 with the value 0, the only one for which
    the recurrence also gives fib(2). *)
Fixpoint fib_nat (k : nat) : Z :=
  match k with
  | O => 0
  | S k' =>
      match k' with
      | O => 1
      | S k'' => fib_nat k' + fib_nat k''
      end
  end.

Definition fib (k : Z) : Z := fib_nat (Z.to_nat k).

(** A linear-time evaluation of the same sequence, used to compute
    particular terms: [fib_pair k = (fib k, fib (k+1))]. *)
Fixpoint fib_pair (k : nat) : Z * Z :=
  match k with
  | O => (0, 1)
  | S k' => let (a, b) := fib_pair k' in (b, a + b)
  end.

(* ===================================================================== *)
(** ** Executions of the loop, observed *)
(* ===================================================================== *)

(** Big-step executions of [while ( i < n ) { body }]: [loop_exec n s s']
    holds when the loop entered in state [s] exits in state [s']. *)
Inductive loop_exec (n : int) : state -> state -> Prop :=
  | loop_exit (s : state) :
      cond n s = false -> loop_exec n s s
  | loop_iter (s s' : state) :
      cond n s = true -> loop_exec n (body s) s' -> loop_exec n s s'.

(** [fib_returns n v]: a call [fib_imperative(n)] runs to its [return]
    statement and returns [v]. *)
Definition fib_returns (n v : int) : Prop :=
  exists s : state, loop_exec n init_state s /\ v = fibonacci s.

(** The states in which the guard [i < n] is evaluated during a call
    [fib_imperative(n)]: the state after the declarations, and the state
    after each execution of the body. *)
Inductive at_guard (n : int) : state -> Prop :=
  | guard_first : at_guard n init_state
  | guard_next (s : state) :
      at_guard n s -> cond n s = true -> at_guard n (body s).

(** Operation counts of a run: executions of the loop body, evaluations
    of the sum [fib1 + fib2] of two terms of the sequence, and updates
    [i + 1] of the counter. *)
Record cost : Type := mkcost {
  iterations : nat;
  additions : nat;
  increments : nat
}.

Definition no_cost : cost := mkcost 0 0 0.

Definition count_iteration (c : cost) : cost :=
  mkcost (S (iterations c)) (additions c) (increments c).
Definition count_addition (c : cost) : cost :=
  mkcost (iterations c) (S (additions c)) (increments c).
Definition count_increment (c : cost) : cost :=
  mkcost (iterations c) (additions c) (S (increments c)).

(** The loop body, counting what it executes. *)
Definition body_cost (s : state) (c : cost) : state * cost :=
  let c := count_iteration c in
  let fibonacci' := add (fib1 s) (fib2 s) in
  let c := count_addition c in
  let fib1' := fib2 s in
  let fib2' := fibonacci' in
  let i' := add (i s) one in
  let c := count_increment c in
  (mkstate fib1' fib2' fibonacci' i', c).

Lemma body_cost_state (s : state) (c : cost) : fst (body_cost s c) = body s.
Proof. reflexivity. Qed.

(** The loop, counting what it executes. *)
Fixpoint while_loop_cost_from (n : int) (s : state) (c : cost)
    (a : Acc Peano.lt (variant n s)) {struct a} : state * cost :=
  match sumbool_of_bool (cond n s) with
  | left Hc =>
      while_loop_cost_from n (fst (body_cost s c)) (snd (body_cost s c))
        (Acc_inv a (variant_decreases n s Hc))
  | right _ => (s, c)
  end.

Definition while_loop_cost (n : int) (s : state) (c : cost) : state * cost :=
  while_loop_cost_from n s c (lt_wf (variant n s)).

(** The invariant of the loop: the counter is at least 2, [fib1] and
    [fib2] hold the terms of index [i - 1] and [i] of the sequence as
    machine integers, and [fibonacci] holds the same value as [fib2]. *)
Definition loop_invariant (s : state) : Prop :=
  2 <= signed (i s) /\
  fib1 s = repr (fib (signed (i s) - 1)) /\
  fib2 s = repr (fib (signed (i s))) /\
  fibonacci s = fib2 s.

(** The counter never passes the bound, once the bound is 2 or more. *)
Definition counter_bounded (n : int) (s : state) : Prop :=
  signed (i s) <= Z.max 2 (signed n).

(** [add_cost c k]: the counts [c] after [k] more iterations. *)
Definition add_cost (c : cost) (k : nat) : cost :=
  mkcost (iterations c + k) (additions c + k) (increments c + k).

(** The two additions of the body, taken as sums of integers:
    [sum_exact s] tells that [fib1 + fib2], evaluated in state [s], is
    representable as an [int], and [incr_exact s] that [i + 1] is.  An
    addition that is not exact is a signed overflow. *)
Definition sum_exact (s : state) : bool :=
  in_range (signed (fib1 s) + signed (fib2 s)).
Definition incr_exact (s : state) : bool :=
  in_range (signed (i s) + signed one).

(** The state after [k] executions of the body. *)
Definition after (k : nat) : state := Nat.iter k body init_state.

(* ===================================================================== *)
(** ** The function in the memory of its caller *)
(* ===================================================================== *)

(** The locations a call could touch: the slots of the four local
    variables of [fib_imperative], and every other location, global or
    external, named by its address. *)
Inductive var : Type :=
  | Vfib1
  | Vfib2
  | Vfibonacci
  | Vi
  | Vglobal (addr : Z).

Definition var_eqb (x y : var) : bool :=
  match x, y with
  | Vfib1, Vfib1 => true
  | Vfib2, Vfib2 => true
  | Vfibonacci, Vfibonacci => true
  | Vi, Vi => true
  | Vglobal a, Vglobal b => Z.eqb a b
  | _, _ => false
  end.

(** A memory gives every location a value; the slots of the locals hold
    whatever the caller left there. *)
Definition store : Type := var -> int.

(** The assignment [x = v]. *)
Definition upd (x : var) (v : int) (m : store) : store :=
  fun y => if var_eqb y x then v else m y.

(** The local variables, read from a memory. *)
Definition locals (m : store) : state :=
  mkstate (m Vfib1) (m Vfib2) (m Vfibonacci) (m Vi).

(** [int fib1 = 1; int fib2 = 1; int fibonacci = fib1; int i = 2;],
    one assignment after the other. *)
Definition decls_store (m : store) : store :=
  let m := upd Vfib1 one m in
  let m := upd Vfib2 one m in
  let m := upd Vfibonacci (m Vfib1) m in
  upd Vi two m.

(** The guard [i < n]; the parameter [n] is passed by value. *)
Definition cond_store (n : int) (m : store) : bool := lt (m Vi) n.

(** [fibonacci = fib1 + fib2; fib1 = fib2; fib2 = fibonacci; i = i + 1;],
    one assignment after the other. *)
Definition body_store (m : store) : store :=
  let m := upd Vfibonacci (add (m Vfib1) (m Vfib2)) m in
  let m := upd Vfib1 (m Vfib2) m in
  let m := upd Vfib2 (m Vfibonacci) m in
  upd Vi (add (m Vi) one) m.

Definition variant_store (n : int) (m : store) : nat :=
  Z.to_nat (signed n - signed (m Vi)).

Lemma variant_store_decreases (n : int) (m : store) :
  cond_store n m = true ->
  (variant_store n (body_store m) < variant_store n m)%nat.
Proof. exact (variant_decreases n (locals m)). Qed.

(** [while ( i < n ) { body }] on a memory. *)
Fixpoint while_store_from (n : int) (m : store)
    (a : Acc Peano.lt (variant_store n m)) {struct a} : store :=
  match sumbool_of_bool (cond_store n m) with
  | left Hc =>
      while_store_from n (body_store m)
        (Acc_inv a (variant_store_decreases n m Hc))
  | right _ => m
  end.

Definition while_store (n : int) (m : store) : store :=
  while_store_from n m (lt_wf (variant_store n m)).

(** A call [fib_imperative(n)] made in memory [m]: the value of
    [return fibonacci;] and the memory that the call leaves. *)
Definition fib_call (n : int) (m : store) : int * store :=
  let m' := while_store n (decls_store m) in
  (m' Vfibonacci, m').

(* ===================================================================== *)
(** ** The sequence: recurrence, sign and growth *)
(* ===================================================================== *)

Lemma fib_nat_SS (k : nat) : fib_nat (S (S k)) = fib_nat (S k) + fib_nat k.
Proof. reflexivity. Qed.

Lemma fib_pair_spec (k : nat) : fib_pair k = (fib_nat k, fib_nat (S k)).
Proof.
  induction k as [|k IH]; [reflexivity|].
  cbn [fib_pair]. rewrite IH, fib_nat_SS. f_equal. apply Z.add_comm.
Qed.

Lemma fib_fast (k : Z) : fib k = fst (fib_pair (Z.to_nat k)).
Proof. unfold fib. rewrite fib_pair_spec. reflexivity. Qed.

Lemma fib_1 : fib 1 = 1.
Proof. reflexivity. Qed.

Lemma fib_2 : fib 2 = 1.
Proof. reflexivity. Qed.

Lemma fib_step (k : Z) : 1 <= k -> fib (k + 1) = fib k + fib (k - 1).
Proof.
  intros Hk. unfold fib.
  replace (Z.to_nat (k + 1)) with (S (S (Z.to_nat (k - 1)))) by lia.
  replace (Z.to_nat k) with (S (Z.to_nat (k - 1))) by lia.
  apply fib_nat_SS.
Qed.

Lemma fib_rec (k : Z) : 3 <= k -> fib k = fib (k - 1) + fib (k - 2).
Proof.
  intros Hk. replace k with ((k - 1) + 1) at 1 by lia.
  rewrite fib_step by lia. do 2 f_equal. lia.
Qed.

Lemma fib_nat_nonneg (k : nat) : 0 <= fib_nat k /\ 0 <= fib_nat (S k).
Proof.
  induction k as [|k [IH1 IH2]]; [cbn; lia|].
  split; [assumption|]. rewrite fib_nat_SS. lia.
Qed.

Lemma fib_nonneg (k : Z) : 0 <= fib k.
Proof. apply fib_nat_nonneg. Qed.

Lemma fib_mono_step (k : Z) : 1 <= k -> fib k <= fib (k + 1).
Proof.
  intros Hk. rewrite fib_step by assumption. pose proof (fib_nonneg (k - 1)). lia.
Qed.

Lemma fib_mono (j k : Z) : 1 <= j <= k -> fib j <= fib k.
Proof.
  intros [Hj Hjk]. pattern k. apply (Zlt_lower_bound_ind _ j); [|exact Hjk].
  intros x IH Hx. destruct (Z.eq_dec x j) as [->|Hne]; [lia|].
  transitivity (fib (x - 1)); [apply IH; lia|].
  replace x with ((x - 1) + 1) at 2 by lia. apply fib_mono_step. lia.
Qed.

(* ===================================================================== *)
(** ** Machine-integer lemmas *)
(* ===================================================================== *)

(** Two machine integers with the same value are equal: the range check
    is a boolean equation, which has a single proof. *)
Lemma int_eq (a b : int) : signed a = signed b -> a = b.
Proof.
  destruct a as [x Hx], b as [y Hy]. cbn. intros ->.
  f_equal. apply UIP_dec, bool_dec.
Qed.

Lemma signed_repr (z : Z) : signed (repr z) = wrap z.
Proof. reflexivity. Qed.

Lemma signed_repr_small (z : Z) :
  min_signed <= z <= max_signed -> signed (repr z) = z.
Proof. intros H. cbn. apply wrap_small, H. Qed.

Lemma wrap_mod (z : Z) : wrap z mod modulus = z mod modulus.
Proof.
  unfold wrap.
  rewrite Zminus_mod, Zmod_mod, <- Zminus_mod. f_equal. lia.
Qed.

Lemma wrap_eq_of_mod (x y : Z) : x mod modulus = y mod modulus -> wrap x = wrap y.
Proof.
  intros H. unfold wrap. f_equal.
  rewrite (Zplus_mod x), (Zplus_mod y), H. reflexivity.
Qed.

Lemma wrap_add (x y : Z) : wrap (wrap x + wrap y) = wrap (x + y).
Proof.
  apply wrap_eq_of_mod.
  rewrite Zplus_mod, !wrap_mod, <- Zplus_mod. reflexivity.
Qed.

Lemma add_repr (x y : Z) : add (repr x) (repr y) = repr (x + y).
Proof. apply int_eq. cbn. apply wrap_add. Qed.

Lemma lt_spec (a b : int) : lt a b = true <-> signed a < signed b.
Proof. apply Z.ltb_lt. Qed.

Lemma lt_false (a b : int) : lt a b = false <-> signed b <= signed a.
Proof. unfold lt. rewrite Z.ltb_ge. reflexivity. Qed.

(* ===================================================================== *)
(** ** Reasoning about the loop *)
(* ===================================================================== *)

(** The result of the loop does not depend on the accessibility proof. *)
Lemma while_loop_from_irrel (n : int) (s : state)
    (a1 a2 : Acc Peano.lt (variant n s)) :
  while_loop_from n s a1 = while_loop_from n s a2.
Proof.
  assert (H : forall k s, variant n s = k ->
            forall a1 a2 : Acc Peano.lt (variant n s),
            while_loop_from n s a1 = while_loop_from n s a2);
    [|exact (H _ s eq_refl a1 a2)].
  clear s a1 a2. induction k as [k IH] using lt_wf_ind. intros s Hk a1 a2.
  destruct a1 as [f1], a2 as [f2]. cbn [while_loop_from Acc_inv].
  destruct (sumbool_of_bool (cond n s)) as [Hc|Hc]; [|reflexivity].
  apply (IH (variant n (body s))); [subst k; apply variant_decreases, Hc|reflexivity].
Qed.

Lemma while_loop_cost_from_irrel (n : int) (s : state) (c : cost)
    (a1 a2 : Acc Peano.lt (variant n s)) :
  while_loop_cost_from n s c a1 = while_loop_cost_from n s c a2.
Proof.
  assert (H : forall k s c, variant n s = k ->
            forall a1 a2 : Acc Peano.lt (variant n s),
            while_loop_cost_from n s c a1 = while_loop_cost_from n s c a2);
    [|exact (H _ s c eq_refl a1 a2)].
  clear s c a1 a2. induction k as [k IH] using lt_wf_ind. intros s c Hk a1 a2.
  destruct a1 as [f1], a2 as [f2]. cbn [while_loop_cost_from Acc_inv body_cost].
  destruct (sumbool_of_bool (cond n s)) as [Hc|Hc]; [|reflexivity].
  apply (IH (variant n (body s))); [subst k; apply variant_decreases, Hc|reflexivity].
Qed.

(** The equation of the loop: test the guard, run the body, loop. *)
Lemma while_loop_eq (n : int) (s : state) :
  while_loop n s = if cond n s then while_loop n (body s) else s.
Proof.
  unfold while_loop. destruct (lt_wf (variant n s)) as [f].
  cbn [while_loop_from Acc_inv].
  destruct (sumbool_of_bool (cond n s)) as [Hc|Hc].
  - rewrite (while_loop_from_irrel n (body s) _ (lt_wf (variant n (body s)))).
    rewrite Hc. reflexivity.
  - rewrite Hc. reflexivity.
Qed.

Lemma while_loop_cost_eq (n : int) (s : state) (c : cost) :
  while_loop_cost n s c =
  if cond n s
  then while_loop_cost n (fst (body_cost s c)) (snd (body_cost s c))
  else (s, c).
Proof.
  unfold while_loop_cost. destruct (lt_wf (variant n s)) as [f].
  cbn [while_loop_cost_from Acc_inv body_cost fst snd].
  destruct (sumbool_of_bool (cond n s)) as [Hc|Hc].
  - rewrite (while_loop_cost_from_irrel n (body s) _ _ (lt_wf (variant n (body s)))).
    rewrite Hc. reflexivity.
  - rewrite Hc. reflexivity.
Qed.

(** Induction on the number of iterations that remain. *)
Lemma variant_ind (n : int) (P : state -> Prop) :
  (forall s, cond n s = false -> P s) ->
  (forall s, cond n s = true -> P (body s) -> P s) ->
  forall s, P s.
Proof.
  intros Hexit Hiter s.
  remember (variant n s) as k eqn:Hk. revert s Hk.
  induction k as [k IH] using lt_wf_ind. intros s Hk.
  destruct (cond n s) eqn:Hc; [|apply Hexit, Hc].
  apply Hiter; [exact Hc|].
  apply (IH (variant n (body s))); [|reflexivity].
  subst k. apply variant_decreases, Hc.
Qed.

(** The rule of the while loop: an invariant of the body holds at the
    exit, where the guard is false. *)
Lemma while_loop_rule (n : int) (P : state -> Prop) :
  (forall s, P s -> cond n s = true -> P (body s)) ->
  forall s, P s -> P (while_loop n s) /\ cond n (while_loop n s) = false.
Proof.
  intros Hbody s. pattern s. apply (variant_ind n); clear s.
  - intros s Hc Hs. rewrite while_loop_eq, Hc. split; assumption.
  - intros s Hc IH Hs. rewrite while_loop_eq, Hc. apply IH, Hbody; assumption.
Qed.

Lemma while_loop_exec (n : int) (s : state) : loop_exec n s (while_loop n s).
Proof.
  pattern s. apply (variant_ind n); clear s.
  - intros s Hc. rewrite while_loop_eq, Hc. apply loop_exit, Hc.
  - intros s Hc IH. rewrite while_loop_eq, Hc. apply loop_iter; assumption.
Qed.

Lemma loop_exec_while_loop (n : int) (s s' : state) :
  loop_exec n s s' -> s' = while_loop n s.
Proof.
  induction 1 as [s Hc|s s' Hc _ IH]; rewrite while_loop_eq, Hc.
  - reflexivity.
  - exact IH.
Qed.

Lemma fib_returns_iff (n v : int) : fib_returns n v <-> v = fib_imperative n.
Proof.
  unfold fib_returns, fib_imperative. split.
  - intros [s [Hs ->]]. apply loop_exec_while_loop in Hs. subst s. reflexivity.
  - intros ->. exists (while_loop n init_state). split; [apply while_loop_exec|reflexivity].
Qed.

(** *** The invariant *)

Lemma loop_invariant_init : loop_invariant init_state.
Proof.
  unfold loop_invariant. cbn [init_state i fib1 fib2 fibonacci].
  split; [cbv; discriminate|]. repeat split; reflexivity.
Qed.

Lemma loop_invariant_body (n : int) (s : state) :
  loop_invariant s -> cond n s = true -> loop_invariant (body s).
Proof.
  intros (Hi & H1 & H2 & _) Hc. unfold loop_invariant.
  cbn [body i fib1 fib2 fibonacci].
  rewrite (signed_incr n (i s) Hc).
  repeat split.
  - lia.
  - rewrite H2. f_equal. f_equal. lia.
  - rewrite H1, H2, add_repr. f_equal.
    rewrite fib_step by lia. apply Z.add_comm.
Qed.

Lemma counter_bounded_init (n : int) : counter_bounded n init_state.
Proof. unfold counter_bounded. change (signed (i init_state)) with 2. lia. Qed.

Lemma counter_bounded_body (n : int) (s : state) :
  counter_bounded n s -> cond n s = true -> counter_bounded n (body s).
Proof.
  unfold counter_bounded. intros Hb Hc. cbn [body i].
  rewrite (signed_incr n (i s) Hc). apply lt_spec in Hc. lia.
Qed.

Lemma at_guard_invariant (n : int) (s : state) :
  at_guard n s -> loop_invariant s /\ counter_bounded n s.
Proof.
  induction 1 as [|s _ [IH1 IH2] Hc].
  - split; [apply loop_invariant_init|apply counter_bounded_init].
  - split; [apply (loop_invariant_body n)|apply counter_bounded_body]; assumption.
Qed.

Lemma at_guard_while_loop (n : int) : at_guard n (while_loop n init_state).
Proof.
  apply (while_loop_rule n (at_guard n)).
  - intros s Hs Hc. apply guard_next; assumption.
  - apply guard_first.
Qed.

(** Every state in which the guard is evaluated lies on the path of the
    run: the loop continued from it ends where the run ends. *)
Lemma at_guard_on_path (n : int) (s : state) :
  at_guard n s -> while_loop n s = while_loop n init_state.
Proof.
  induction 1 as [|s _ IH Hc]; [reflexivity|].
  rewrite <- IH, (while_loop_eq n s), Hc. reflexivity.
Qed.

(** The state in which the loop exits. *)
Lemma while_loop_exit_state (n : int) :
  let s := while_loop n init_state in
  signed (i s) = Z.max 2 (signed n) /\ loop_invariant s.
Proof.
  intros s.
  destruct (at_guard_invariant n s (at_guard_while_loop n)) as [Hinv Hb].
  destruct (while_loop_rule n (fun _ => True) (fun _ _ _ => I) init_state I)
    as [_ Hc].
  fold s in Hc. unfold cond in Hc. apply lt_false in Hc.
  unfold counter_bounded in Hb. destruct Hinv as (Hi & Hrest).
  split; [lia|]. split; assumption.
Qed.

(** The function computes the sequence in machine arithmetic. *)
Lemma fib_imperative_repr (n : int) :
  1 <= signed n -> fib_imperative n = repr (fib (signed n)).
Proof.
  intros Hn. unfold fib_imperative.
  destruct (while_loop_exit_state n) as (Hi & _ & _ & H2 & Hf).
  rewrite Hf, H2, Hi.
  destruct (Z.eq_dec (signed n) 1) as [->|Hne].
  - reflexivity.
  - f_equal. f_equal. lia.
Qed.

(** *** The number of iterations *)

Lemma variant_exit (n : int) (s : state) : cond n s = false -> variant n s = 0%nat.
Proof. unfold cond, variant. intros H. apply lt_false in H. lia. Qed.

Lemma variant_iter (n : int) (s : state) :
  cond n s = true -> variant n s = S (variant n (body s)).
Proof.
  unfold cond, variant. intros H. cbn [body i].
  rewrite (signed_incr n _ H). apply lt_spec in H. lia.
Qed.

Lemma while_loop_cost_spec (n : int) (s : state) (c : cost) :
  while_loop_cost n s c = (while_loop n s, add_cost c (variant n s)).
Proof.
  revert c. pattern s. apply (variant_ind n); clear s.
  - intros s Hc c. rewrite while_loop_cost_eq, while_loop_eq, Hc, (variant_exit n s Hc).
    unfold add_cost. rewrite !Nat.add_0_r. destruct c; reflexivity.
  - intros s Hc IH c.
    rewrite while_loop_cost_eq, while_loop_eq, Hc, (variant_iter n s Hc).
    rewrite body_cost_state, IH. f_equal.
    unfold add_cost. cbn. f_equal; lia.
Qed.

Lemma variant_init (n : int) :
  Z.of_nat (variant n init_state) = Z.max 0 (signed n - 2).
Proof. unfold variant. change (signed (i init_state)) with 2. lia. Qed.

Lemma signed_pred (n : int) (d : Z) :
  0 <= d -> min_signed + d <= signed n -> signed (repr (signed n - d)) = signed n - d.
Proof.
  intros Hd Hn. apply signed_repr_small. pose proof (signed_range n). lia.
Qed.

(** The largest term of the sequence that a 32-bit [int] holds is the
    46th. *)
Lemma fib_46_47 : fib 46 = 1836311903 /\ fib 47 = 2971215073.
Proof. rewrite !fib_fast. split; vm_compute; reflexivity. Qed.

Lemma fib_fits (k : Z) : 1 <= k <= 46 -> min_signed <= fib k <= max_signed.
Proof.
  intros Hk. pose proof (fib_nonneg k). pose proof (fib_mono k 46 Hk) as Hm.
  destruct fib_46_47 as [H46 _]. rewrite H46 in Hm.
  unfold min_signed, max_signed, half_modulus, wordsize. cbn. lia.
Qed.

Lemma fib_imperative_exact (n : int) :
  1 <= signed n <= 46 -> signed (fib_imperative n) = fib (signed n).
Proof.
  intros Hn. rewrite fib_imperative_repr by lia.
  apply signed_repr_small, fib_fits, Hn.
Qed.

(* ===================================================================== *)
(** ** The contract of [fib_imperative] *)
(* ===================================================================== *)

(** C1. For every [int] n with 1 <= n whose term fib(n) is representable
    as a 32-bit signed integer, [fib_imperative n] is the n-th term of the
    sequence fib(1) = 1, fib(2) = 1, fib(k) = fib(k-1) + fib(k-2). *)
Theorem fib_imperative_correct (n : int) :
  1 <= signed n ->
  in_range (fib (signed n)) = true ->
  signed (fib_imperative n) = fib (signed n).
Proof.
  intros Hn Hfits. rewrite fib_imperative_repr by exact Hn.
  apply signed_repr_small, in_range_bounds, Hfits.
Qed.

Lemma fib_imperative_correct_witness :
  1 <= signed (repr 20) /\
  in_range (fib (signed (repr 20))) = true /\
  signed (fib_imperative (repr 20)) = fib (signed (repr 20)).
Proof.
  assert (H : 1 <= signed (repr 20)) by (vm_compute; discriminate).
  assert (Hf : in_range (fib (signed (repr 20))) = true) by (vm_compute; reflexivity).
  split; [exact H|]. split; [exact Hf|exact (fib_imperative_correct (repr 20) H Hf)].
Defined.

(** C2, as the code has it.  For every [int] n >= 3 the outputs satisfy
    the recurrence, the sum being the program's 32-bit addition; the sum
    is exact as long as fib(n) fits in an [int].  Index 2 is excluded:
    the output at 0 is 1, not 0. *)
Theorem fib_imperative_recurrence (n : int) :
  3 <= signed n ->
  fib_imperative n =
    add (fib_imperative (repr (signed n - 1))) (fib_imperative (repr (signed n - 2))) /\
  (signed n <= 46 ->
   signed (fib_imperative n) =
     signed (fib_imperative (repr (signed n - 1))) +
     signed (fib_imperative (repr (signed n - 2)))).
Proof.
  intros Hn.
  assert (Hmin : min_signed = -2147483648) by reflexivity.
  assert (H1 : signed (repr (signed n - 1)) = signed n - 1)
    by (apply signed_pred; lia).
  assert (H2 : signed (repr (signed n - 2)) = signed n - 2)
    by (apply signed_pred; lia).
  split.
  - rewrite (fib_imperative_repr n) by lia.
    rewrite (fib_imperative_repr (repr (signed n - 1))) by lia.
    rewrite (fib_imperative_repr (repr (signed n - 2))) by lia.
    rewrite H1, H2, add_repr, <- fib_rec by exact Hn. reflexivity.
  - intros H46. rewrite !fib_imperative_exact by lia.
    rewrite H1, H2. apply fib_rec, Hn.
Qed.

Lemma fib_imperative_recurrence_witness :
  3 <= signed (repr 47) /\
  fib_imperative (repr 47) =
    add (fib_imperative (repr (signed (repr 47) - 1)))
        (fib_imperative (repr (signed (repr 47) - 2))).
Proof.
  assert (H : 3 <= signed (repr 47)) by (vm_compute; discriminate).
  destruct (fib_imperative_recurrence (repr 47) H) as [Hr _].
  split; [exact H|exact Hr].
Defined.

(** C2, as stated, fails at n = 2: the outputs at 2, 1 and 0 are all 1,
    and 1 is not 1 + 1, neither as integers nor as machine integers. *)
Lemma fib_imperative_recurrence_fails_at_2 :
  2 <= signed (repr 2) /\
  signed (fib_imperative (repr 2)) <>
    signed (fib_imperative (repr (2 - 1))) + signed (fib_imperative (repr (2 - 2))) /\
  fib_imperative (repr 2) <>
    add (fib_imperative (repr (2 - 1))) (fib_imperative (repr (2 - 2))).
Proof.
  split; [vm_compute; discriminate|].
  split; [vm_compute; discriminate|].
  intros H. apply (f_equal signed) in H. vm_compute in H. discriminate H.
Qed.

(** C3. For every [int] n <= 2, non-positive ones included, the guard is
    false in the initial state, the loop body is never executed, and the
    function returns the initial value of the accumulator, which is 1. *)
Theorem fib_imperative_small (n : int) :
  signed n <= 2 ->
  cond n init_state = false /\
  while_loop_cost n init_state no_cost = (init_state, no_cost) /\
  fib_imperative n = fibonacci init_state /\
  signed (fib_imperative n) = 1.
Proof.
  intros Hn.
  assert (Hc : cond n init_state = false)
    by (apply lt_false; change (signed (i init_state)) with 2; exact Hn).
  assert (Hw : while_loop n init_state = init_state)
    by (rewrite while_loop_eq, Hc; reflexivity).
  split; [exact Hc|].
  split; [rewrite while_loop_cost_eq, Hc; reflexivity|].
  unfold fib_imperative. rewrite Hw. split; reflexivity.
Qed.

Lemma fib_imperative_small_witness :
  signed (repr (-7)) <= 2 /\ signed (fib_imperative (repr (-7))) = 1.
Proof.
  assert (H : signed (repr (-7)) <= 2) by (vm_compute; discriminate).
  destruct (fib_imperative_small (repr (-7)) H) as (_ & _ & _ & Hv).
  split; [exact H|exact Hv].
Defined.

(** C4, as the code has it.  The outputs are non-decreasing on the
    overflow-free range: for every [int] n with 1 <= n <= 45 (so that
    fib(n+1), at most fib(46), is below 2^31),
    [fib_imperative (n+1) >= fib_imperative n]. *)
Theorem fib_imperative_monotone (n : int) :
  1 <= signed n <= 45 ->
  signed (fib_imperative (repr (signed n + 1))) >= signed (fib_imperative n).
Proof.
  intros Hn.
  assert (H1 : signed (repr (signed n + 1)) = signed n + 1).
  { apply signed_repr_small. unfold min_signed, max_signed. cbn. lia. }
  rewrite !fib_imperative_exact by lia.
  rewrite H1. apply Z.le_ge, fib_mono_step. lia.
Qed.

Lemma fib_imperative_monotone_witness :
  1 <= signed (repr 45) <= 45 /\
  signed (fib_imperative (repr (signed (repr 45) + 1))) >=
    signed (fib_imperative (repr 45)).
Proof.
  assert (H : 1 <= signed (repr 45) <= 45) by (vm_compute; split; discriminate).
  split; [exact H|exact (fib_imperative_monotone (repr 45) H)].
Defined.

(** C4, as stated, fails at n = 46: the 47th term does not fit in an
    [int], the sum wraps to a negative value, and the output decreases
    from 1836311903 to -1323752223. *)
Lemma fib_imperative_not_monotone_at_46 :
  1 <= signed (repr 46) /\
  signed (fib_imperative (repr 46)) = 1836311903 /\
  signed (fib_imperative (repr (46 + 1))) = -1323752223 /\
  ~ signed (fib_imperative (repr (46 + 1))) >= signed (fib_imperative (repr 46)).
Proof.
  split; [vm_compute; discriminate|].
  split; [vm_compute; reflexivity|].
  split; [vm_compute; reflexivity|].
  vm_compute. intros H. apply H. reflexivity.
Qed.

(** C5. The first outputs: 1, 1, 2, 3, 5 at 1 to 5, and 55 at 10. *)
Theorem fib_imperative_values :
  signed (fib_imperative (repr 1)) = 1 /\
  signed (fib_imperative (repr 2)) = 1 /\
  signed (fib_imperative (repr 3)) = 2 /\
  signed (fib_imperative (repr 4)) = 3 /\
  signed (fib_imperative (repr 5)) = 5 /\
  signed (fib_imperative (repr 10)) = 55.
Proof. repeat split; vm_compute; reflexivity. Qed.

(** C6. For every [int] n, negative and zero included, the call runs to
    its [return] statement: the loop has a terminating execution from the
    initial state, and the value returned is an [int].  The function has
    no other outcome: no input is rejected and no failure is signalled. *)
Theorem fib_imperative_terminates (n : int) :
  exists v : int,
    fib_returns n v /\
    v = fib_imperative n /\
    min_signed <= signed v <= max_signed.
Proof.
  exists (fib_imperative n). split; [|split].
  - apply fib_returns_iff. reflexivity.
  - reflexivity.
  - apply signed_range.
Qed.

(** C7. For every [int] n >= 1 the function returns normally, and its
    result is the n-th term of the sequence reduced modulo 2^32 into the
    signed range [-2^31, 2^31): overflow wraps silently. *)
Theorem fib_imperative_wraps (n : int) :
  1 <= signed n ->
  fib_returns n (fib_imperative n) /\
  signed (fib_imperative n) = wrap (fib (signed n)) /\
  signed (fib_imperative n) mod 2 ^ 32 = fib (signed n) mod 2 ^ 32 /\
  - 2 ^ 31 <= signed (fib_imperative n) < 2 ^ 31.
Proof.
  intros Hn.
  split; [apply fib_returns_iff; reflexivity|].
  rewrite fib_imperative_repr by exact Hn. rewrite signed_repr.
  split; [reflexivity|].
  split; [apply wrap_mod|].
  pose proof (in_range_bounds _ (wrap_in_range (fib (signed n)))) as H.
  unfold min_signed, max_signed, half_modulus, wordsize in H. cbn in H.
  change (2 ^ 31) with 2147483648. lia.
Qed.

Lemma fib_imperative_wraps_witness :
  1 <= signed (repr 47) /\
  signed (fib_imperative (repr 47)) = wrap (fib (signed (repr 47))) /\
  signed (fib_imperative (repr 47)) = 2971215073 - 2 ^ 32.
Proof.
  assert (H : 1 <= signed (repr 47)) by (vm_compute; discriminate).
  destruct (fib_imperative_wraps (repr 47) H) as (_ & Hw & _).
  split; [exact H|]. split; [exact Hw|vm_compute; reflexivity].
Defined.

(** C8. For every [int] n the loop executes exactly max(0, n - 2)
    iterations; each iteration evaluates one sum of two terms,
    [fib1 + fib2], and one update of the counter, [i + 1], so the number
    of additions is linear in n.  The run uses the four [int] variables
    of [state] and nothing else: the counted loop ends in the state in
    which the loop of the function ends. *)
Theorem fib_imperative_iterations (n : int) :
  let run := while_loop_cost n init_state no_cost in
  fst run = while_loop n init_state /\
  Z.of_nat (iterations (snd run)) = Z.max 0 (signed n - 2) /\
  additions (snd run) = iterations (snd run) /\
  increments (snd run) = iterations (snd run).
Proof.
  cbv zeta. rewrite while_loop_cost_spec. cbn [fst snd].
  split; [reflexivity|].
  unfold add_cost, no_cost. cbn [iterations additions increments].
  rewrite Nat.add_0_l. split; [apply variant_init|]. split; reflexivity.
Qed.

(** C9. The loop invariant.  For every [int] n >= 3, in every state in
    which the guard is evaluated the counter i is between 2 and n, [fib1]
    holds the term of index i - 1 and [fib2] the term of index i, as
    machine integers (modulo 2^32); and when the guard is true, the state
    after the body is again such a state, with counter i + 1. *)
Theorem fib_imperative_invariant (n : int) (s : state) :
  3 <= signed n ->
  at_guard n s ->
  (2 <= signed (i s) <= signed n /\
   fib1 s = repr (fib (signed (i s) - 1)) /\
   fib2 s = repr (fib (signed (i s)))) /\
  (cond n s = true ->
   at_guard n (body s) /\
   signed (i (body s)) = signed (i s) + 1 /\
   fib1 (body s) = repr (fib (signed (i s))) /\
   fib2 (body s) = repr (fib (signed (i s) + 1))).
Proof.
  intros Hn Hs.
  destruct (at_guard_invariant n s Hs) as [(Hi & H1 & H2 & _) Hb].
  unfold counter_bounded in Hb.
  split.
  - split; [lia|]. split; assumption.
  - intros Hc.
    assert (Hs' : at_guard n (body s)) by (apply guard_next; assumption).
    destruct (at_guard_invariant n _ Hs') as [(_ & H1' & H2' & _) _].
    pose proof (signed_incr n (i s) Hc) as Hi'. change (add (i s) one) with (i (body s)) in Hi'.
    rewrite Hi' in H1', H2'.
    split; [exact Hs'|]. split; [exact Hi'|]. split; [|exact H2'].
    rewrite H1'. f_equal. f_equal. lia.
Qed.

Lemma fib_imperative_invariant_witness :
  3 <= signed (repr 5) /\
  at_guard (repr 5) (body init_state) /\
  fib2 (body init_state) = repr (fib (signed (i (body init_state)))).
Proof.
  assert (H : 3 <= signed (repr 5)) by (vm_compute; discriminate).
  assert (Hg : at_guard (repr 5) (body init_state))
    by (apply guard_next; [apply guard_first|reflexivity]).
  destruct (fib_imperative_invariant (repr 5) (body init_state) H Hg)
    as [(_ & _ & H2) _].
  split; [exact H|]. split; [exact Hg|exact H2].
Defined.

(** *** The call in a memory *)

Lemma while_store_from_irrel (n : int) (m : store)
    (a1 a2 : Acc Peano.lt (variant_store n m)) :
  while_store_from n m a1 = while_store_from n m a2.
Proof.
  assert (H : forall k m, variant_store n m = k ->
            forall a1 a2 : Acc Peano.lt (variant_store n m),
            while_store_from n m a1 = while_store_from n m a2);
    [|exact (H _ m eq_refl a1 a2)].
  clear m a1 a2. induction k as [k IH] using lt_wf_ind. intros m Hk a1 a2.
  destruct a1 as [f1], a2 as [f2]. cbn [while_store_from Acc_inv].
  destruct (sumbool_of_bool (cond_store n m)) as [Hc|Hc]; [|reflexivity].
  apply (IH (variant_store n (body_store m)));
    [subst k; apply variant_store_decreases, Hc|reflexivity].
Qed.

Lemma while_store_eq (n : int) (m : store) :
  while_store n m =
  if cond_store n m then while_store n (body_store m) else m.
Proof.
  unfold while_store. destruct (lt_wf (variant_store n m)) as [f].
  cbn [while_store_from Acc_inv].
  destruct (sumbool_of_bool (cond_store n m)) as [Hc|Hc].
  - rewrite (while_store_from_irrel n (body_store m) _
               (lt_wf (variant_store n (body_store m)))).
    rewrite Hc. reflexivity.
  - rewrite Hc. reflexivity.
Qed.

(** The assignments of the body act on the local variables as [body]
    does, and leave every other location as it is. *)
Lemma locals_body_store (m : store) : locals (body_store m) = body (locals m).
Proof. reflexivity. Qed.

Lemma body_store_frame (m : store) (a : Z) :
  body_store m (Vglobal a) = m (Vglobal a).
Proof. reflexivity. Qed.

Lemma locals_decls_store (m : store) : locals (decls_store m) = init_state.
Proof. reflexivity. Qed.

Lemma decls_store_frame (m : store) (a : Z) :
  decls_store m (Vglobal a) = m (Vglobal a).
Proof. reflexivity. Qed.

(** The loop on a memory runs the loop of the function on the local
    variables, and leaves every other location as it is. *)
Lemma while_store_spec (n : int) (m : store) :
  locals (while_store n m) = while_loop n (locals m) /\
  forall a : Z, while_store n m (Vglobal a) = m (Vglobal a).
Proof.
  remember (variant_store n m) as k eqn:Hk. revert m Hk.
  induction k as [k IH] using lt_wf_ind. intros m Hk.
  rewrite while_store_eq, (while_loop_eq n (locals m)).
  change (cond n (locals m)) with (cond_store n m).
  destruct (cond_store n m) eqn:Hc; [|split; reflexivity].
  destruct (IH (variant_store n (body_store m))
              ltac:(subst k; apply variant_store_decreases, Hc)
              (body_store m) eq_refl) as [Hl Hg].
  split.
  - rewrite Hl, locals_body_store. reflexivity.
  - intros a. rewrite Hg. apply body_store_frame.
Qed.

(** C10. The function is self-contained.  Two calls with the same
    argument return the same value, whatever the memories they are made
    in: the result does not depend on any global or external location,
    nor on what the slots of the local variables held before the call;
    it is the value that [fib_imperative] computes from the argument
    alone.  And a call writes no global or external location: each one
    holds after the call what it held before. *)
Theorem fib_imperative_self_contained (n1 n2 : int) (m1 m2 : store) :
  signed n1 = signed n2 ->
  fst (fib_call n1 m1) = fst (fib_call n2 m2) /\
  fst (fib_call n1 m1) = fib_imperative n1 /\
  (forall a : Z, snd (fib_call n1 m1) (Vglobal a) = m1 (Vglobal a)) /\
  (forall a : Z, snd (fib_call n2 m2) (Vglobal a) = m2 (Vglobal a)).
Proof.
  intros Hn. apply int_eq in Hn. subst n2.
  assert (Hv : forall m, fst (fib_call n1 m) = fib_imperative n1).
  { intros m. unfold fib_call, fib_imperative. cbn [fst].
    destruct (while_store_spec n1 (decls_store m)) as [Hl _].
    rewrite locals_decls_store in Hl. rewrite <- Hl. reflexivity. }
  assert (Hf : forall m a, snd (fib_call n1 m) (Vglobal a) = m (Vglobal a)).
  { intros m a. unfold fib_call. cbn [snd].
    destruct (while_store_spec n1 (decls_store m)) as [_ Hg].
    rewrite Hg. apply decls_store_frame. }
  split; [rewrite !Hv; reflexivity|].
  split; [apply Hv|]. split; intros a; apply Hf.
Qed.

Lemma fib_imperative_self_contained_witness :
  signed (repr 10) = signed (repr (10 + 2 ^ 32)) /\
  fst (fib_call (repr 10) (fun _ => repr 0)) =
    fst (fib_call (repr (10 + 2 ^ 32)) (fun x => match x with
                                               | Vglobal a => repr a
                                               | _ => repr (-1)
                                               end)) /\
  signed (fst (fib_call (repr 10) (fun _ => repr 0))) = 55.
Proof.
  assert (H : signed (repr 10) = signed (repr (10 + 2 ^ 32))) by reflexivity.
  destruct (fib_imperative_self_contained (repr 10) (repr (10 + 2 ^ 32))
              (fun _ => repr 0)
              (fun x => match x with Vglobal a => repr a | _ => repr (-1) end)
              H) as (He & _).
  split; [exact H|]. split; [exact He|vm_compute; reflexivity].
Defined.

(* ===================================================================== *)
(** ** Further properties of the run *)
(* ===================================================================== *)

Lemma in_range_intro (z : Z) :
  min_signed <= z <= max_signed -> in_range z = true.
Proof.
  intros [H1 H2]. unfold in_range.
  apply andb_true_intro. split; apply Z.leb_le; assumption.
Qed.

Lemma fib_pos (k : Z) : 1 <= k -> 1 <= fib k.
Proof.
  intros Hk. pose proof (fib_mono 1 k) as H. rewrite fib_1 in H. apply H. lia.
Qed.

Lemma fib_lt_step (k : Z) : 2 <= k -> fib k < fib (k + 1).
Proof.
  intros Hk. rewrite fib_step by lia. pose proof (fib_pos (k - 1)). lia.
Qed.

Lemma fib_lt (j k : Z) : 2 <= j < k -> fib j < fib k.
Proof.
  intros [Hj Hjk]. apply Z.lt_le_trans with (fib (j + 1)).
  - apply fib_lt_step, Hj.
  - apply fib_mono. lia.
Qed.

(** From index 47 on, no term of the sequence fits in an [int]. *)
Lemma fib_too_large (k : Z) : 47 <= k -> max_signed < fib k.
Proof.
  intros Hk. pose proof (fib_mono 47 k) as Hm.
  destruct fib_46_47 as [_ H47]. rewrite H47 in Hm.
  unfold max_signed, half_modulus, wordsize. cbn. lia.
Qed.

(** The states after 0, 1, ..., n - 2 executions of the body are those
    in which the guard is evaluated, and the counter counts them. *)
Lemma after_at_guard (n : int) (k : nat) :
  Z.of_nat k <= Z.max 0 (signed n - 2) ->
  at_guard n (after k) /\ signed (i (after k)) = 2 + Z.of_nat k.
Proof.
  induction k as [|k IH]; intros Hk.
  - split; [apply guard_first|reflexivity].
  - destruct IH as [Hg Hi]; [lia|].
    assert (Hc : cond n (after k) = true) by (apply lt_spec; lia).
    change (after (S k)) with (body (after k)).
    split; [apply guard_next; assumption|].
    cbn [body i]. rewrite (signed_incr n _ Hc). lia.
Qed.

(** A state in which the guard is evaluated and false is the state in
    which the loop exits. *)
Lemma at_guard_exit (n : int) (s : state) :
  at_guard n s -> cond n s = false -> while_loop n init_state = s.
Proof.
  intros Hg Hc. rewrite <- (at_guard_on_path n s Hg), while_loop_eq, Hc.
  reflexivity.
Qed.

(** The loop is the body iterated max(0, n - 2) times. *)
Lemma while_loop_after (n : int) :
  while_loop n init_state = after (Z.to_nat (signed n - 2)).
Proof.
  destruct (after_at_guard n (Z.to_nat (signed n - 2))) as [Hg Hi]; [lia|].
  apply at_guard_exit; [exact Hg|]. apply lt_false. lia.
Qed.

(** X1. The function is exact up to index 46 and no further: for every
    [int] n >= 1, the result is the n-th term of the sequence if and only
    if n <= 46. *)
Theorem fib_imperative_exact_iff (n : int) :
  1 <= signed n ->
  (signed (fib_imperative n) = fib (signed n) <-> signed n <= 46).
Proof.
  intros Hn. split.
  - intros He. destruct (Z_le_gt_dec (signed n) 46) as [H|H]; [exact H|].
    pose proof (fib_too_large (signed n)) as Hl.
    pose proof (signed_range (fib_imperative n)). lia.
  - intros H46. apply fib_imperative_exact. lia.
Qed.

Lemma fib_imperative_exact_iff_witness :
  1 <= signed (repr 47) /\
  (signed (fib_imperative (repr 47)) = fib (signed (repr 47)) <->
   signed (repr 47) <= 46).
Proof.
  assert (H : 1 <= signed (repr 47)) by (vm_compute; discriminate).
  split; [exact H|exact (fib_imperative_exact_iff (repr 47) H)].
Defined.

(** X2. The counter never overflows: whenever the guard [i < n] is true,
    for any bound n up to the largest [int], the update [i + 1] is an
    exact sum and the new counter does not pass n. *)
Theorem counter_increment_exact (n : int) (s : state) :
  cond n s = true ->
  incr_exact s = true /\
  signed (i (body s)) = signed (i s) + 1 /\
  signed (i (body s)) <= signed n.
Proof.
  intros Hc. pose proof (signed_incr n (i s) Hc) as Hi.
  apply lt_spec in Hc.
  pose proof (signed_range (i s)). pose proof (signed_range n).
  split; [|split].
  - unfold incr_exact. apply in_range_intro. change (signed one) with 1. lia.
  - exact Hi.
  - cbn [body i]. lia.
Qed.

Lemma counter_increment_exact_witness :
  cond (repr max_signed) init_state = true /\
  incr_exact init_state = true /\
  signed (i (body init_state)) = signed (i init_state) + 1 /\
  signed (i (body init_state)) <= signed (repr max_signed).
Proof.
  assert (H : cond (repr max_signed) init_state = true) by reflexivity.
  split; [exact H|exact (counter_increment_exact (repr max_signed) init_state H)].
Defined.

(** X3. A run is free of signed overflow exactly when n <= 46: every sum
    [fib1 + fib2] that the run of [fib_imperative n] evaluates is
    representable as an [int] if and only if n <= 46.  From 47 on, the sum
    evaluated with counter 46 overflows. *)
Theorem sums_exact_iff (n : int) :
  (forall s : state, at_guard n s -> cond n s = true -> sum_exact s = true) <->
  signed n <= 46.
Proof.
  split.
  - intros Hall. destruct (Z_le_gt_dec (signed n) 46) as [H|H]; [exact H|].
    destruct (after_at_guard n 44) as [Hg Hi]; [lia|].
    assert (Hc : cond n (after 44) = true) by (apply lt_spec; lia).
    specialize (Hall _ Hg Hc). vm_compute in Hall. discriminate Hall.
  - intros H46 s Hg Hc.
    destruct (at_guard_invariant n s Hg) as [(Hi & H1 & H2 & _) _].
    apply lt_spec in Hc. unfold sum_exact. rewrite H1, H2.
    rewrite !signed_repr_small by (apply fib_fits; lia).
    replace (fib (signed (i s) - 1) + fib (signed (i s)))
      with (fib (signed (i s) + 1)) by (rewrite fib_step by lia; lia).
    apply in_range_intro, fib_fits. lia.
Qed.

Lemma sums_exact_iff_witness :
  signed (repr 46) <= 46 /\
  forall s : state,
    at_guard (repr 46) s -> cond (repr 46) s = true -> sum_exact s = true.
Proof.
  assert (H : signed (repr 46) <= 46) by (vm_compute; discriminate).
  destruct (sums_exact_iff (repr 46)) as [_ Hall].
  split; [exact H|exact (Hall H)].
Defined.

(** X4. One more iteration: for every [int] n with 2 <= n below the
    largest [int], the run for n + 1 exits in the state that the body
    produces from the exit state of the run for n; its result is the sum
    of the two accumulators that the run for n leaves. *)
Theorem while_loop_succ (n : int) :
  2 <= signed n < max_signed ->
  while_loop (repr (signed n + 1)) init_state = body (while_loop n init_state) /\
  fib_imperative (repr (signed n + 1)) =
    add (fib1 (while_loop n init_state)) (fib2 (while_loop n init_state)).
Proof.
  intros Hn.
  assert (H1 : signed (repr (signed n + 1)) = signed n + 1).
  { apply signed_repr_small. pose proof (signed_range n). lia. }
  assert (Hs : while_loop (repr (signed n + 1)) init_state =
               body (while_loop n init_state)).
  { rewrite !while_loop_after, H1.
    replace (Z.to_nat (signed n + 1 - 2)) with (S (Z.to_nat (signed n - 2))) by lia.
    reflexivity. }
  split; [exact Hs|]. unfold fib_imperative. rewrite Hs. reflexivity.
Qed.

Lemma while_loop_succ_witness :
  2 <= signed (repr 46) < max_signed /\
  while_loop (repr (signed (repr 46) + 1)) init_state =
    body (while_loop (repr 46) init_state).
Proof.
  assert (H : 2 <= signed (repr 46) < max_signed)
    by (vm_compute; split; [discriminate|reflexivity]).
  destruct (while_loop_succ (repr 46) H) as [Hs _].
  split; [exact H|exact Hs].
Defined.

(** X5. The state at the [return]: for every [int] n >= 2 the loop stops
    with the counter equal to n, never beyond it, [fib2] and [fibonacci]
    hold the result for n, and [fib1] holds the result for n - 1. *)
Theorem while_loop_exit (n : int) :
  2 <= signed n ->
  let s := while_loop n init_state in
  signed (i s) = signed n /\
  fibonacci s = fib_imperative n /\
  fib2 s = fib_imperative n /\
  fib1 s = fib_imperative (repr (signed n - 1)).
Proof.
  intros Hn s.
  destruct (while_loop_exit_state n) as (Hi & _ & H1 & H2 & Hf). fold s in Hi, H1, H2, Hf.
  assert (Hp : signed (repr (signed n - 1)) = signed n - 1).
  { apply signed_pred; [lia|]. unfold min_signed. cbn. lia. }
  split; [lia|]. split; [reflexivity|]. split; [symmetry; exact Hf|].
  rewrite (fib_imperative_repr (repr (signed n - 1))) by lia.
  rewrite H1, Hp, Hi. f_equal. f_equal. lia.
Qed.

Lemma while_loop_exit_witness :
  2 <= signed (repr 10) /\
  signed (i (while_loop (repr 10) init_state)) = signed (repr 10) /\
  fib1 (while_loop (repr 10) init_state) = fib_imperative (repr (signed (repr 10) - 1)).
Proof.
  assert (H : 2 <= signed (repr 10)) by (vm_compute; discriminate).
  destruct (while_loop_exit (repr 10) H) as (Hi & _ & _ & H1).
  split; [exact H|]. split; [exact Hi|exact H1].
Defined.

(** X6. On the overflow-free range the results increase strictly from
    index 2 on: for [int]s m and n with 2 <= m < n <= 46,
    [fib_imperative m < fib_imperative n]; distinct arguments of that
    range give distinct results. *)
Theorem fib_imperative_strictly_increasing (m n : int) :
  2 <= signed m < signed n ->
  signed n <= 46 ->
  signed (fib_imperative m) < signed (fib_imperative n).
Proof.
  intros Hm Hn. rewrite !fib_imperative_exact by lia.
  apply fib_lt, Hm.
Qed.

Lemma fib_imperative_strictly_increasing_witness :
  2 <= signed (repr 2) < signed (repr 3) /\
  signed (repr 3) <= 46 /\
  signed (fib_imperative (repr 2)) < signed (fib_imperative (repr 3)).
Proof.
  assert (H : 2 <= signed (repr 2) < signed (repr 3))
    by (vm_compute; split; [discriminate|reflexivity]).
  assert (H' : signed (repr 3) <= 46) by (vm_compute; discriminate).
  split; [exact H|]. split; [exact H'|].
  exact (fib_imperative_strictly_increasing (repr 2) (repr 3) H H').
Defined.
